(** * mcp-weather: the Ollama client's tool-call detection and query pipeline

    A shallow embedding of [src/mcp-client-weather/client-llama3-ollama.py]:
    [MCPClient._detect_weather_tool_call] (structured extraction followed by
    the keyword heuristic) and [MCPClient.process_query] (infer, detect,
    invoke, infer again).

    Python values are modelled as follows.
    - A [str] is the list of its code points ([pystr]).
    - The value of [json.loads] is a [value]; a [dict] is an association list
      in insertion order with distinct keys.
    - A float is kept as the decimal literal it was read from ([FLit]); no
      rounding is modelled.
    - An exception is represented by its message, the text of [str(e)];
      only instances of [Exception] are modelled.
    - The model, the tool session and the Unicode tables of the interpreter
      are parameters ([pyruntime], and the Section variables of the
      pipeline).  Interpreter resource limits (recursion depth, the digit
      limit of [int]) and console output are not modelled. *)

From Stdlib Require Import List NArith ZArith Bool Lia String Ascii.
Import ListNotations.

Set Implicit Arguments.

Local Open Scope N_scope.

(** ** Strings *)

Definition pystr := list N.

Fixpoint str_eqb (a b : pystr) : bool :=
  match a, b with
  | [], [] => true
  | x :: a', y :: b' => (x =? y) && str_eqb a' b'
  | _, _ => false
  end.

(** Code points of a literal written in this file: the literals are UTF-8
    and [lit] decodes them. *)
Fixpoint utf8_bytes (s : string) : list N :=
  match s with
  | EmptyString => []
  | String a s' => N_of_ascii a :: utf8_bytes s'
  end.

Fixpoint utf8_decode (fuel : nat) (b : list N) : pystr :=
  match fuel with
  | O => []
  | S f =>
    match b with
    | [] => []
    | b0 :: r0 =>
      if b0 <? 128 then b0 :: utf8_decode f r0
      else if b0 <? 224 then
        match r0 with
        | b1 :: r1 => ((b0 - 192) * 64 + (b1 - 128)) :: utf8_decode f r1
        | _ => []
        end
      else if b0 <? 240 then
        match r0 with
        | b1 :: b2 :: r2 =>
          ((b0 - 224) * 4096 + (b1 - 128) * 64 + (b2 - 128)) :: utf8_decode f r2
        | _ => []
        end
      else
        match r0 with
        | b1 :: b2 :: b3 :: r3 =>
          ((b0 - 240) * 262144 + (b1 - 128) * 4096 + (b2 - 128) * 64 + (b3 - 128))
            :: utf8_decode f r3
        | _ => []
        end
    end
  end.

Definition lit (s : string) : pystr :=
  let b := utf8_bytes s in utf8_decode (List.length b) b.

(** The double quote cannot be written inside a literal of this file: [js]
    reads an apostrophe as a double quote, so that [js "{'name': 1}"] is the
    Python string [{"name": 1}]. *)
Definition js (s : string) : pystr :=
  map (fun c => if c =? 39 then 34 else c) (lit s).

Definition starts_with (p s : pystr) : bool :=
  str_eqb p (firstn (List.length p) s).

(** [needle in hay] on two strings. *)
Fixpoint contains (needle hay : pystr) : bool :=
  starts_with needle hay ||
  match hay with
  | [] => false
  | _ :: hay' => contains needle hay'
  end.

Fixpoint drop_while (f : N -> bool) (s : pystr) : pystr :=
  match s with
  | [] => []
  | c :: s' => if f c then drop_while f s' else s
  end.

(** [sep.join(parts)] *)
Fixpoint join (sep : pystr) (parts : list pystr) : pystr :=
  match parts with
  | [] => []
  | [p] => p
  | p :: ps => p ++ sep ++ join sep ps
  end.

(** ** Values *)

Local Set Warnings "-register-all".

Inductive pyfloat :=
| FNan
| FInf (neg : bool)
| FLit (literal : pystr).

Inductive value :=
| VNone
| VBool (b : bool)
| VInt (z : Z)
| VFloat (f : pyfloat)
| VStr (s : pystr)
| VList (l : list value)
| VDict (d : list (pystr * value)).

Definition dict := list (pystr * value).

Fixpoint dict_get (k : pystr) (d : dict) : option value :=
  match d with
  | [] => None
  | (k', v) :: d' => if str_eqb k k' then Some v else dict_get k d'
  end.

Definition dict_has (k : pystr) (d : dict) : bool :=
  match dict_get k d with Some _ => true | None => false end.

(** [d[k] = v]: a present key keeps its place, a new key goes last. *)
Fixpoint dict_set (k : pystr) (v : value) (d : dict) : dict :=
  match d with
  | [] => [(k, v)]
  | (k', v') :: d' =>
    if str_eqb k k' then (k', v) :: d' else (k', v') :: dict_set k v d'
  end.

(** ** The interpreter's tables

    What the source relies on and the repository does not define: the
    Unicode character database outside ASCII ([str.isspace], the decimal
    digits, the alphanumeric characters, the lower case of a character in
    its context), [repr] of a value that is not a string, and the test of a
    float against zero. *)
Record pyruntime := {
  uc_isspace : N -> bool;
  uc_isdecimal : N -> bool;
  uc_isalnum : N -> bool;
  uc_lower : pystr -> N -> pystr -> pystr;
  py_repr : value -> pystr;
  float_nonzero : pyfloat -> bool
}.

(** An interpreter whose tables know nothing outside ASCII; used to run the
    model on ASCII inputs. *)
Definition ascii_runtime : pyruntime := {|
  uc_isspace := fun _ => false;
  uc_isdecimal := fun _ => false;
  uc_isalnum := fun _ => false;
  uc_lower := fun _ c _ => [c];
  py_repr := fun _ => lit "<object>";
  float_nonzero := fun _ => true
|}.

Definition in_range (lo hi c : N) : bool := (lo <=? c) && (c <=? hi).

Section Chars.
Variable rt : pyruntime.

(** [str.isspace], also the class [\s] *)
Definition isspace (c : N) : bool :=
  if c <? 128 then in_range 9 13 c || in_range 28 32 c else uc_isspace rt c.

(** the class [\d] *)
Definition isdecimal (c : N) : bool :=
  if c <? 128 then in_range 48 57 c else uc_isdecimal rt c.

Definition isalpha_ascii (c : N) : bool :=
  in_range 65 90 c || in_range 97 122 c.

(** the class [\w] *)
Definition isword (c : N) : bool :=
  if c <? 128 then in_range 48 57 c || isalpha_ascii c || (c =? 95)
  else uc_isalnum rt c.

(** The lower case of [c] between [before] and [after]; outside ASCII the
    context can matter (the final sigma). *)
Definition lower_char (before : pystr) (c : N) (after : pystr) : pystr :=
  if c <? 128 then [if in_range 65 90 c then c + 32 else c]
  else uc_lower rt before c after.

Fixpoint lower_from (before s : pystr) : pystr :=
  match s with
  | [] => []
  | c :: after => lower_char before c after ++ lower_from (before ++ [c]) after
  end.

(** [s.lower()] *)
Definition lower (s : pystr) : pystr := lower_from [] s.

Definition lstrip (s : pystr) : pystr := drop_while isspace s.
Definition rstrip (s : pystr) : pystr := rev (drop_while isspace (rev s)).

(** [s.strip()] *)
Definition strip (s : pystr) : pystr := rstrip (lstrip s).
End Chars.

(** [s.upper()] on ASCII letters, the only strings the source upper-cases
    (the group [[A-Za-z]{2}]); other code points are left alone here. *)
Definition upper_char (c : N) : N := if in_range 97 122 c then c - 32 else c.
Definition upper (s : pystr) : pystr := map upper_char s.

(** ** Regular expressions

    The part of Python's [re] that the four patterns of the source use:
    character classes, repetition of a class (greedy or lazy, bounded or
    not), literals, concatenation, alternation, capturing groups and the
    word boundary [\b].  Matching is by backtracking: [re_match] lists every
    way to match from a position, in the order Python tries them, so the head
    of the list is the match Python reports. *)

Inductive cls :=
| CAny                       (* [.] under [re.DOTALL] *)
| CChar (c : N)
| CSpace                     (* [\s] *)
| CDigit                     (* [\d] *)
| CRange (lo hi : N)
| CUnion (a b : cls).

Inductive re :=
| RChr (c : cls)
| RRep (c : cls) (lo : nat) (hi : option nat) (greedy : bool)
| RStr (s : pystr)
| RCat (a b : re)
| RAlt (a b : re)
| RGrp (i : nat) (a : re)
| RWordB.

(** A position in the subject: the character before it (none at the start),
    what is left to read, and the groups captured so far. *)
Record mstate := MState {
  caps : list (nat * pystr);
  prev : option N;
  rest : pystr
}.

Fixpoint last_opt (p : option N) (w : pystr) : option N :=
  match w with
  | [] => p
  | c :: w' => last_opt (Some c) w'
  end.

Definition can_more (hi : option nat) : bool :=
  match hi with Some O => false | _ => true end.

Definition dec_hi (hi : option nat) : option nat := option_map Nat.pred hi.

Section Regex.
Variable rt : pyruntime.

Fixpoint cls_ok (k : cls) (c : N) : bool :=
  match k with
  | CAny => true
  | CChar x => c =? x
  | CSpace => isspace rt c
  | CDigit => isdecimal rt c
  | CRange lo hi => in_range lo hi c
  | CUnion a b => cls_ok a c || cls_ok b c
  end.

(** Repetition of a class: a greedy one first tries one more character,
    a lazy one first tries to stop. *)
Fixpoint rep (k : cls) (greedy : bool) (lo : nat) (hi : option nat)
         (p : option N) (s : pystr) : list (option N * pystr) :=
  let stop := if Nat.eqb lo 0 then [(p, s)] else [] in
  let more :=
    match s with
    | c :: s' =>
      if cls_ok k c && can_more hi
      then rep k greedy (Nat.pred lo) (dec_hi hi) (Some c) s'
      else []
    | [] => []
    end in
  if greedy then more ++ stop else stop ++ more.

Definition is_word_opt (o : option N) : bool :=
  match o with Some c => isword rt c | None => false end.

Definition consumed (before after : pystr) : pystr :=
  firstn (List.length before - List.length after) before.

Fixpoint re_match (r : re) (st : mstate) : list mstate :=
  match r with
  | RChr k =>
    match rest st with
    | c :: s' => if cls_ok k c then [MState (caps st) (Some c) s'] else []
    | [] => []
    end
  | RRep k lo hi g =>
    map (fun ps => MState (caps st) (fst ps) (snd ps))
        (rep k g lo hi (prev st) (rest st))
  | RStr w =>
    if starts_with w (rest st)
    then [MState (caps st) (last_opt (prev st) w) (skipn (List.length w) (rest st))]
    else []
  | RCat a b => flat_map (re_match b) (re_match a st)
  | RAlt a b => re_match a st ++ re_match b st
  | RGrp i a =>
    map (fun st' => MState ((i, consumed (rest st) (rest st')) :: caps st')
                           (prev st') (rest st'))
        (re_match a st)
  | RWordB =>
    if xorb (is_word_opt (prev st)) (is_word_opt (hd_error (rest st)))
    then [st] else []
  end.

(** [re.search]: the first position, from the left, at which the pattern
    matches, and there the first match in backtracking order. *)
Fixpoint search_from (r : re) (p : option N) (s : pystr) : option mstate :=
  match re_match r (MState [] p s) with
  | m :: _ => Some m
  | [] =>
    match s with
    | [] => None
    | c :: s' => search_from r (Some c) s'
    end
  end.

Definition re_search (r : re) (s : pystr) : option mstate :=
  search_from r None s.

(** [m.group(i)]; [None] for a group that took no part in the match. *)
Fixpoint group (i : nat) (cs : list (nat * pystr)) : option pystr :=
  match cs with
  | [] => None
  | (j, w) :: cs' => if Nat.eqb i j then Some w else group i cs'
  end.

(** [re.findall] for a pattern that cannot match the empty string: the
    matches found from left to right, each search starting where the
    previous match ended. *)
Fixpoint findall_from (fuel : nat) (r : re) (p : option N) (s : pystr)
  : list mstate :=
  match fuel with
  | O => []
  | S f =>
    match search_from r p s with
    | None => []
    | Some m => m :: findall_from f r (prev m) (rest m)
    end
  end.

Definition re_findall (r : re) (s : pystr) : list mstate :=
  findall_from (S (List.length s)) r None s.
End Regex.

(** The patterns of [_detect_weather_tool_call]. *)
Definition star (k : cls) (greedy : bool) : re := RRep k 0 None greedy.
Definition plus (k : cls) : re := RRep k 1 None true.
Definition opt (k : cls) : re := RRep k 0 (Some 1%nat) true.

(** [\s*```], the end of the fenced pattern *)
Definition fence_tail : re := RCat (star CSpace true) (RStr (lit "```")).

(** [```json\s*(\{.*?\})\s*```] *)
Definition fence_re : re :=
  RCat (RStr (lit "```json"))
  (RCat (star CSpace true)
  (RCat (RGrp 1 (RCat (RChr (CChar 123)) (RCat (star CAny false) (RChr (CChar 125)))))
        fence_tail)).

(** [(\{.*"name".*\})] *)
Definition bare_re : re :=
  RGrp 1 (RCat (RChr (CChar 123))
         (RCat (star CAny true)
         (RCat (RStr (js "'name'"))
         (RCat (star CAny true)
               (RChr (CChar 125)))))).

(** [-?\d{1,n}\.\d+] *)
Definition decimal_re (n : nat) : re :=
  RCat (opt (CChar 45))
  (RCat (RRep CDigit 1 (Some n) true)
  (RCat (RChr (CChar 46))
        (plus CDigit))).

(** [(-?\d{1,2}\.\d+)[,\s]+(-?\d{1,3}\.\d+)] *)
Definition latlon_re : re :=
  RCat (RGrp 1 (decimal_re 2))
  (RCat (plus (CUnion (CChar 44) CSpace))
        (RGrp 2 (decimal_re 3))).

(** [\b(?:in|for|state)\s+([A-Za-z]{2})\b] *)
Definition state_re : re :=
  RCat RWordB
  (RCat (RAlt (RStr (lit "in")) (RAlt (RStr (lit "for")) (RStr (lit "state"))))
  (RCat (plus CSpace)
  (RCat (RGrp 1 (RRep (CUnion (CRange 65 90) (CRange 97 122)) 2 (Some 2%nat) true))
        RWordB))).

(** ** [json.loads]

    The decoder of the standard library (strict mode, no hooks), as its
    scanner reads a [str]: [None] stands for [JSONDecodeError]. *)

Definition is_json_ws (c : N) : bool :=
  (c =? 32) || (c =? 9) || (c =? 10) || (c =? 13).

Definition skip_ws (s : pystr) : pystr := drop_while is_json_ws s.

Definition is_digit (c : N) : bool := in_range 48 57 c.

Definition hex_val (c : N) : option N :=
  if in_range 48 57 c then Some (c - 48)
  else if in_range 97 102 c then Some (c - 87)
  else if in_range 65 70 c then Some (c - 55)
  else None.

Definition hex4 (a b c d : N) : option N :=
  match hex_val a, hex_val b, hex_val c, hex_val d with
  | Some x, Some y, Some z, Some w => Some (((x * 16 + y) * 16 + z) * 16 + w)
  | _, _, _, _ => None
  end.

Definition is_high_surrogate (u : N) : bool := in_range 55296 56319 u.
Definition is_low_surrogate (u : N) : bool := in_range 56320 57343 u.
Definition join_surrogates (hi lo : N) : N :=
  65536 + (hi - 55296) * 1024 + (lo - 56320).

Definition unescape (e : N) : option N :=
  if (e =? 34) || (e =? 92) || (e =? 47) then Some e
  else if e =? 98 then Some 8
  else if e =? 102 then Some 12
  else if e =? 110 then Some 10
  else if e =? 114 then Some 13
  else if e =? 116 then Some 9
  else None.

Definition push (c : N) (r : option (pystr * pystr)) : option (pystr * pystr) :=
  match r with
  | Some (w, s) => Some (c :: w, s)
  | None => None
  end.

(** The body of a string, read after its opening quote: the decoded text
    and what follows the closing quote. *)
Fixpoint scanstring (s : pystr) : option (pystr * pystr) :=
  match s with
  | [] => None
  | c :: s1 =>
    if c =? 34 then Some ([], s1)
    else if c =? 92 then
      match s1 with
      | [] => None
      | e :: s2 =>
        if e =? 117 then
          match s2 with
          | h1 :: h2 :: h3 :: h4 :: s3 =>
            match hex4 h1 h2 h3 h4 with
            | None => None
            | Some u =>
              let lone := push u (scanstring s3) in
              if is_high_surrogate u then
                match s3 with
                | a :: b :: g1 :: g2 :: g3 :: g4 :: ((_ :: _) as s4) =>
                  if (a =? 92) && (b =? 117) then
                    match hex4 g1 g2 g3 g4 with
                    | None => None
                    | Some u2 =>
                      if is_low_surrogate u2
                      then push (join_surrogates u u2) (scanstring s4)
                      else lone
                    end
                  else lone
                | _ => lone
                end
              else lone
            end
          | _ => None
          end
        else
          match unescape e with
          | Some x => push x (scanstring s2)
          | None => None
          end
      end
    else if c <=? 31 then None
    else push c (scanstring s1)
  end.

Fixpoint take_digits (s : pystr) : pystr :=
  match s with
  | c :: s' => if is_digit c then c :: take_digits s' else []
  | [] => []
  end.

Definition drop_digits (s : pystr) : pystr := drop_while is_digit s.

Definition int_of_digits (ds : pystr) : Z :=
  fold_left (fun acc c => (acc * 10 + Z.of_N (c - 48))%Z) ds 0%Z.

(** The integer part of a number: [0], or a non-zero digit and digits. *)
Definition int_part (s : pystr) : option (pystr * pystr) :=
  match s with
  | d :: s' =>
    if in_range 49 57 d then Some (d :: take_digits s', drop_digits s')
    else if d =? 48 then Some ([d], s')
    else None
  | [] => None
  end.

(** What follows the fraction [.ddd], when there is one. *)
Definition after_frac (s : pystr) : option pystr :=
  match s with
  | p :: d :: s' =>
    if (p =? 46) && is_digit d then Some (drop_digits s') else None
  | _ => None
  end.

(** What follows the exponent [e+ddd], when there is a complete one. *)
Definition after_exp (s : pystr) : option pystr :=
  match s with
  | e :: s1 =>
    if (e =? 101) || (e =? 69) then
      let s2 := match s1 with
                | g :: r => if (g =? 43) || (g =? 45) then r else s1
                | [] => s1
                end in
      match s2 with
      | d :: r => if is_digit d then Some (drop_digits r) else None
      | [] => None
      end
    else None
  | [] => None
  end.

Definition match_number (s : pystr) : option (value * pystr) :=
  let neg := match s with c :: _ => c =? 45 | [] => false end in
  let s0 := if neg then tl s else s in
  match int_part s0 with
  | None => None
  | Some (ds, s1) =>
    let s2 := match after_frac s1 with Some r => r | None => s1 end in
    let s3 := match after_exp s2 with Some r => r | None => s2 end in
    let is_float :=
      match after_frac s1, after_exp s2 with
      | None, None => false
      | _, _ => true
      end in
    let numstr := firstn (List.length s - List.length s3) s in
    Some (if is_float then VFloat (FLit numstr)
          else VInt (if neg then - int_of_digits ds else int_of_digits ds)%Z,
          s3)
  end.

Inductive jres :=
| JOk (v : value) (rest : pystr)
| JErr
| JFuel.

(** [scan_once] reads one JSON term; [parse_pairs] and [parse_elems] are the
    loops of an object and of an array, entered at the first key and at the
    first element.  The scanner is recursive: [fuel] bounds the number of
    nested calls, and twice the length of the text, plus one, is always
    enough ([scan_once_fuel]). *)
Fixpoint scan_once (fuel : nat) (s : pystr) {struct fuel} : jres :=
  match fuel with
  | O => JFuel
  | S f =>
    match s with
    | [] => JErr
    | c :: s1 =>
      if c =? 34 then
        match scanstring s1 with
        | Some (w, r) => JOk (VStr w) r
        | None => JErr
        end
      else if c =? 123 then
        match skip_ws s1 with
        | c1 :: s2 => if c1 =? 125 then JOk (VDict []) s2
                      else parse_pairs f [] (c1 :: s2)
        | [] => JErr
        end
      else if c =? 91 then
        match skip_ws s1 with
        | c1 :: s2 => if c1 =? 93 then JOk (VList []) s2
                      else parse_elems f [] (c1 :: s2)
        | [] => JErr
        end
      else if starts_with (lit "null") s then JOk VNone (skipn 4 s)
      else if starts_with (lit "true") s then JOk (VBool true) (skipn 4 s)
      else if starts_with (lit "false") s then JOk (VBool false) (skipn 5 s)
      else if starts_with (lit "NaN") s then JOk (VFloat FNan) (skipn 3 s)
      else if starts_with (lit "Infinity") s then JOk (VFloat (FInf false)) (skipn 8 s)
      else if starts_with (lit "-Infinity") s then JOk (VFloat (FInf true)) (skipn 9 s)
      else
        match match_number s with
        | Some (v, r) => JOk v r
        | None => JErr
        end
    end
  end

with parse_pairs (fuel : nat) (acc : dict) (s : pystr) {struct fuel} : jres :=
  match fuel with
  | O => JFuel
  | S f =>
    match s with
    | [] => JErr
    | q :: s1 =>
      if q =? 34 then
        match scanstring s1 with
        | None => JErr
        | Some (key, s2) =>
          match skip_ws s2 with
          | [] => JErr
          | colon :: s3 =>
            if colon =? 58 then
              match scan_once f (skip_ws s3) with
              | JOk v s4 =>
                let acc' := dict_set key v acc in
                match skip_ws s4 with
                | [] => JErr
                | c :: s5 =>
                  if c =? 125 then JOk (VDict acc') s5
                  else if c =? 44 then parse_pairs f acc' (skip_ws s5)
                  else JErr
                end
              | JErr => JErr
              | JFuel => JFuel
              end
            else JErr
          end
        end
      else JErr
    end
  end

with parse_elems (fuel : nat) (acc : list value) (s : pystr) {struct fuel} : jres :=
  match fuel with
  | O => JFuel
  | S f =>
    match scan_once f s with
    | JOk v s1 =>
      let acc' := acc ++ [v] in
      match skip_ws s1 with
      | [] => JErr
      | c :: s2 =>
        if c =? 93 then JOk (VList acc') s2
        else if c =? 44 then parse_elems f acc' (skip_ws s2)
        else JErr
      end
    | JErr => JErr
    | JFuel => JFuel
    end
  end.

(** [json.loads(s)]: leading white space, one term, trailing white space,
    and nothing else. *)
Definition json_loads (s : pystr) : option value :=
  let s0 := skip_ws s in
  match scan_once (2 * List.length s0 + 1) s0 with
  | JOk v r => match skip_ws r with [] => Some v | _ :: _ => None end
  | _ => None
  end.

(** ** Outcomes of a Python computation *)

Inductive outcome (A : Type) :=
| Ok (a : A)
| Raise (e : pystr).

Arguments Ok {A} a.
Arguments Raise {A} e.

Definition type_name (v : value) : pystr :=
  match v with
  | VNone => lit "NoneType"
  | VBool _ => lit "bool"
  | VInt _ => lit "int"
  | VFloat _ => lit "float"
  | VStr _ => lit "str"
  | VList _ => lit "list"
  | VDict _ => lit "dict"
  end.

(** [k in v] for a string [k] *)
Definition py_in (k : pystr) (v : value) : outcome bool :=
  match v with
  | VDict d => Ok (dict_has k d)
  | VStr s => Ok (contains k s)
  | VList l =>
    Ok (existsb (fun x => match x with VStr s => str_eqb k s | _ => false end) l)
  | _ => Raise (lit "argument of type '" ++ type_name v ++ lit "' is not iterable")
  end.

(** [v[k]] for a string [k] *)
Definition subscript (v : value) (k : pystr) : outcome value :=
  match v with
  | VDict d =>
    match dict_get k d with
    | Some x => Ok x
    | None => Raise (lit "'" ++ k ++ lit "'")
    end
  | _ => Raise (lit "'" ++ type_name v ++ lit "' object is not subscriptable")
  end.

(** [v.get(k, default)] *)
Definition get_default (v : value) (k : pystr) (default : value) : outcome value :=
  match v with
  | VDict d =>
    match dict_get k d with
    | Some x => Ok x
    | None => Ok default
    end
  | _ => Raise (lit "'" ++ type_name v ++ lit "' object has no attribute 'get'")
  end.

(** ** [_detect_weather_tool_call] *)

Definition call (name : pystr) (arguments : dict) : value :=
  VDict [(lit "name", VStr name); (lit "arguments", VDict arguments)].

Section Detect.
Variable rt : pyruntime.

(** [float(s)] of a string matched by [-?\d{1,n}\.\d+] *)
Definition py_float (s : pystr) : value := VFloat (FLit s).

Definition group_or_empty (i : nat) (m : mstate) : pystr :=
  match group i (caps m) with Some w => w | None => [] end.

(** Lines 47-49: the match of the fenced pattern, else of the bare one. *)
Definition find_object (text : pystr) : option mstate :=
  match re_search rt fence_re text with
  | Some m => Some m
  | None => re_search rt bare_re text
  end.

(** Lines 46-56, on the stripped text: [Ok (Some obj)] is [return obj],
    [Ok None] is falling through to the heuristic. *)
Definition strategy_A (text : pystr) : outcome (option value) :=
  match find_object text with
  | Some m =>
    match group 1 (caps m) with
    | None => Raise (lit "the JSON object must be str, bytes or bytearray, not NoneType")
    | Some g =>
      match json_loads g with
      | Some obj =>
        match py_in (lit "name") obj with
        | Ok true => Ok (Some obj)
        | Ok false => Ok None
        | Raise e => Raise e
        end
      | None => Ok None
      end
    end
  | None => Ok None
  end.

Definition forecast_keyword (lowered : pystr) : bool :=
  contains (lit "forecast") lowered || contains (lit "temperature") lowered
  || contains (lit "weather") lowered.

Definition alert_keyword (lowered : pystr) : bool :=
  contains (lit "alert") lowered || contains (lit "warning") lowered
  || contains (lit "storm") lowered.

(** Lines 58-78, on the stripped text. *)
Definition strategy_B (text : pystr) : option value :=
  let lowered := lower rt text in
  if forecast_keyword lowered then
    let latlon := re_findall rt latlon_re text in
    match latlon with
    | m :: _ =>
      let lat := py_float (group_or_empty 1 m) in
      let lon := py_float (group_or_empty 2 m) in
      Some (call (lit "get_forecast")
                 [(lit "latitude", lat); (lit "longitude", lon)])
    | [] => Some (call (lit "get_forecast") [])
    end
  else
    let state_match := re_search rt state_re text in
    if alert_keyword lowered then
      match state_match with
      | Some m =>
        let state := upper (group_or_empty 1 m) in
        Some (call (lit "get_alerts") [(lit "state", VStr state)])
      | None => Some (call (lit "get_alerts") [])
      end
    else None.

Definition detect_weather_tool_call (text : pystr) : outcome (option value) :=
  let text := strip rt text in
  match strategy_A text with
  | Raise e => Raise e
  | Ok (Some obj) => Ok (Some obj)
  | Ok None => Ok (strategy_B text)
  end.
End Detect.

(** ** [process_query] *)

Record message := Message { role : pystr; content : pystr }.

(** An item of a tool result's content, as lines 129-135 tell them apart:
    an object with a [text] attribute, a [dict], or anything else, of which
    only [str(item)] is used. *)
Inductive content_item :=
| TextItem (text : value)
| DictItem (d : dict)
| OtherItem (shown : pystr).

(** A result of [session.call_tool]: its [content] (empty also when the
    attribute is missing or [None]) and [str(tool_result)]. *)
Record tool_result := ToolResult {
  tr_content : list content_item;
  tr_str : pystr
}.

Inductive event :=
| Inference (messages : list message)
| Invocation (name : value) (args : value).

Definition nl : pystr := [10].

Definition system_msg : pystr :=
  lit "You are a helpful weather assistant. "
  ++ lit "You have access to these tools:" ++ nl
  ++ lit "1️⃣ get_alerts(state: str) — get weather alerts for a U.S. state (e.g., CA, NY)" ++ nl
  ++ lit "2️⃣ get_forecast(latitude: float, longitude: float) — get a 5-period forecast for given coordinates." ++ nl ++ nl
  ++ lit "When you want to use a tool, output ONLY a JSON object like this:" ++ nl
  ++ js "{'name': 'get_forecast', 'arguments': {'latitude': 37.77, 'longitude': -122.42}}".

(** Lines 115-119: the coercion of the arguments to a [dict]. *)
Definition coerce_args (args : value) : value :=
  match args with
  | VList (first :: _) =>
    match first with
    | VDict _ => first
    | _ => VDict []
    end
  | VDict _ => args
  | _ => VDict []
  end.

Section Pipeline.
Variable rt : pyruntime.

(** The two collaborators: the model behind [_call_llama] and the session
    behind [session.call_tool].  Each may answer or raise, and may change
    the state of the world. *)
Variable World : Type.
Variable llama : list message -> World -> outcome pystr * World.
Variable session_call_tool :
  value -> value -> World -> outcome tool_result * World.

Definition pstate := (World * list event)%type.
Definition M (A : Type) := pstate -> outcome A * pstate.

Definition ret {A} (a : A) : M A := fun st => (Ok a, st).

Definition bind {A B} (m : M A) (k : A -> M B) : M B :=
  fun st =>
    match m st with
    | (Ok a, st') => k a st'
    | (Raise e, st') => (Raise e, st')
    end.

Definition lift {A} (o : outcome A) : M A := fun st => (o, st).

(** [try: body except Exception as e: handler(e)] *)
Definition try_except {A} (body : M A) (handler : pystr -> M A) : M A :=
  fun st =>
    match body st with
    | (Ok a, st') => (Ok a, st')
    | (Raise e, st') => handler e st'
    end.

Notation "x <- m ;; k" := (bind m (fun x => k))
  (at level 61, m at next level, right associativity).

Definition call_llama (messages : list message) : M pystr :=
  fun st =>
    let (r, w) := llama messages (fst st) in
    (r, (w, snd st ++ [Inference messages])).

Definition call_tool (name args : value) : M tool_result :=
  fun st =>
    let (r, w) := session_call_tool name args (fst st) in
    (r, (w, snd st ++ [Invocation name args])).

Definition truthy (v : value) : bool :=
  match v with
  | VNone => false
  | VBool b => b
  | VInt z => negb (z =? 0)%Z
  | VFloat f => float_nonzero rt f
  | VStr s => match s with [] => false | _ => true end
  | VList l => match l with [] => false | _ => true end
  | VDict d => match d with [] => false | _ => true end
  end.

(** [str(v)] *)
Definition py_str (v : value) : pystr :=
  match v with
  | VStr s => s
  | _ => py_repr rt v
  end.

(** [tool_output += v] *)
Definition str_iadd (tool_output : pystr) (v : value) : outcome pystr :=
  match v with
  | VStr s => Ok (tool_output ++ s)
  | _ => Raise (lit "can only concatenate str (not " ++ js "'" ++ type_name v
                ++ js "'" ++ lit ") to str")
  end.

(** Lines 129-135: the loop over [tool_result.content]. *)
Fixpoint render_items (tool_output : pystr) (items : list content_item)
  : outcome pystr :=
  match items with
  | [] => Ok tool_output
  | item :: items' =>
    let r :=
      match item with
      | TextItem text => str_iadd tool_output text
      | DictItem d =>
        match dict_get (lit "text") d with
        | Some v => str_iadd tool_output v
        | None => Ok (tool_output ++ py_str (VDict d))
        end
      | OtherItem shown => Ok (tool_output ++ shown)
      end in
    match r with
    | Ok tool_output' => render_items tool_output' items'
    | Raise e => Raise e
    end
  end.

(** Lines 127-137: the readable text of a tool result. *)
Definition render (tool_result : tool_result) : outcome pystr :=
  match tr_content tool_result with
  | [] => Ok (tr_str tool_result)
  | items => render_items [] items
  end.

(** Lines 97-100: the history a query starts with. *)
Definition initial_messages (query : pystr) : list message :=
  [Message (lit "system") system_msg; Message (lit "user") query].

Definition process_query (query : pystr) : M pystr :=
  let messages := initial_messages query in
  response_text <- call_llama messages ;;
  let final_output := [response_text] in
  tool_call <- lift (detect_weather_tool_call rt response_text) ;;
  final_output <-
    match tool_call with
    | Some tc =>
      if truthy tc then
        tool_name <- lift (subscript tc (lit "name")) ;;
        args <- lift (get_default tc (lit "arguments") (VDict [])) ;;
        let args := coerce_args args in
        try_except
          (tool_result <- call_tool tool_name args ;;
           tool_output <- lift (render tool_result) ;;
           let messages :=
             messages ++
             [Message (lit "assistant") response_text;
              Message (lit "tool")
                      (lit "Tool " ++ py_str tool_name ++ lit " result:" ++ nl
                       ++ tool_output)] in
           followup_text <- call_llama messages ;;
           ret (final_output ++ [followup_text]))
          (fun e => ret (final_output ++ [lit "[Tool call error: " ++ e ++ lit "]"]))
      else ret final_output
    | None => ret final_output
    end ;;
  ret (join nl final_output).
End Pipeline.

(** ** What the patterns mean

    [rmatch rt r p w s cs cs']: the pattern [r] matches the text [w] when
    [w] is preceded by the character [p] and followed by [s], and turns the
    captures [cs] into [cs'].  This is the meaning of a pattern without the
    order in which Python tries the alternatives. *)
Inductive rmatch (rt : pyruntime)
  : re -> option N -> pystr -> pystr -> list (nat * pystr) -> list (nat * pystr) -> Prop :=
| rm_chr k c p s cs :
    cls_ok rt k c = true -> rmatch rt (RChr k) p [c] s cs cs
| rm_rep k lo hi g w p s cs :
    Forall (fun c => cls_ok rt k c = true) w ->
    (lo <= List.length w)%nat ->
    (forall h, hi = Some h -> (List.length w <= h)%nat) ->
    rmatch rt (RRep k lo hi g) p w s cs cs
| rm_str w p s cs : rmatch rt (RStr w) p w s cs cs
| rm_cat a b w1 w2 p s cs cs1 cs2 :
    rmatch rt a p w1 (w2 ++ s) cs cs1 ->
    rmatch rt b (last_opt p w1) w2 s cs1 cs2 ->
    rmatch rt (RCat a b) p (w1 ++ w2) s cs cs2
| rm_alt_l a b w p s cs cs1 :
    rmatch rt a p w s cs cs1 -> rmatch rt (RAlt a b) p w s cs cs1
| rm_alt_r a b w p s cs cs1 :
    rmatch rt b p w s cs cs1 -> rmatch rt (RAlt a b) p w s cs cs1
| rm_grp i a w p s cs cs1 :
    rmatch rt a p w s cs cs1 -> rmatch rt (RGrp i a) p w s cs ((i, w) :: cs1)
| rm_wordb p s cs :
    xorb (is_word_opt rt p) (is_word_opt rt (hd_error s)) = true ->
    rmatch rt RWordB p [] s cs cs.

Section Shapes.
Variable rt : pyruntime.


Definition all_space (w : pystr) : Prop :=
  Forall (fun c => isspace rt c = true) w.










End Shapes.



(** ** [connect_to_server], [chat_loop], [cleanup] and [main]

    The rest of the client drives [process_query]: [main] checks the
    command line, connects, runs the chat loop and releases what the
    connection holds.  The calls that leave the program are kept as named
    calls of one collaborator, [external], which answers or raises; the
    lines typed at the prompt are a script, a list of what the successive
    calls of [input] return or raise.  The trace lists, in order, the
    external calls, the inferences and invocations of each query, and the
    lines that [chat_loop] and [main] print (the diagnostic prints of the
    other methods are not part of the model). *)

(** [s.endswith(suffix)] *)
Definition ends_with (suffix s : pystr) : bool :=
  starts_with (rev suffix) (rev s).

(** Lines 18-21: the check of the script's extension and the choice of the
    interpreter. *)
Definition server_command (server_script_path : pystr) : outcome pystr :=
  if negb (ends_with (lit ".py") server_script_path
           || ends_with (lit ".js") server_script_path)
  then Raise (lit "Server script must be a .py or .js file")
  else Ok (if ends_with (lit ".py") server_script_path
           then lit "python" else lit "node").

(** The calls that leave the client: entering the [stdio_client] context
    for a command and its arguments, entering the [ClientSession] context,
    [session.initialize()], [session.list_tools()] and
    [exit_stack.aclose()]. *)
Inductive ext_call :=
| StdioClient (command : pystr) (args : list pystr)
| EnterSession
| Initialize
| ListTools
| AClose.

Inductive sys_event :=
| Call (c : ext_call)
| Step (e : event)
| Print (line : pystr).

(** How a run of the chat loop over a script stands at the end of the
    script: the loop was left by [break], or it is still waiting for the
    next line. *)
Inductive loop_end := Quit | StillRunning.

(** How [main] stands at the end of the script: it returned, it left by
    [sys.exit(status)], it raised, or its chat loop is still waiting. *)
Inductive main_end :=
| Returned
| Exited (status : Z)
| Failed (e : pystr)
| Waiting.

(** Lines 159-163 *)
Definition banner : list pystr :=
  [nl ++ lit "🦙 LOCAL Llama3 + MCP Client Started!";
   lit "Type a query like:";
   lit "→ 'What’s the weather forecast for latitude 37.77 and longitude -122.42?'";
   lit "→ 'Are there any weather alerts in CA?'";
   lit "Type 'quit' to exit." ++ nl].

Definition usage : pystr :=
  lit "Usage: python local_llama_client.py <server_script>".

Definition is_inference (e : event) : bool :=
  match e with Inference _ => true | Invocation _ _ => false end.

Definition is_invocation (e : event) : bool :=
  match e with Inference _ => false | Invocation _ _ => true end.

Definition is_print (e : sys_event) : bool :=
  match e with Print _ => true | _ => false end.

Definition is_step (p : event -> bool) (e : sys_event) : bool :=
  match e with Step e => p e | _ => false end.

Section System.
Variable rt : pyruntime.
Variable World : Type.
Variable llama : list message -> World -> outcome pystr * World.
Variable session_call_tool :
  value -> value -> World -> outcome tool_result * World.
Variable external : ext_call -> World -> outcome unit * World.

Definition sys_state := (World * list sys_event)%type.
Definition SM (A : Type) := sys_state -> outcome A * sys_state.

Definition sys_ret {A} (a : A) : SM A := fun st => (Ok a, st).

Definition sys_bind {A B} (m : SM A) (k : A -> SM B) : SM B :=
  fun st =>
    match m st with
    | (Ok a, st') => k a st'
    | (Raise e, st') => (Raise e, st')
    end.

Definition sys_lift {A} (o : outcome A) : SM A := fun st => (o, st).

(** [try: body except Exception as e: handler(e)] *)
Definition sys_try {A} (body : SM A) (handler : pystr -> SM A) : SM A :=
  fun st =>
    match body st with
    | (Ok a, st') => (Ok a, st')
    | (Raise e, st') => handler e st'
    end.

Notation "x <- m ;; k" := (sys_bind m (fun x => k))
  (at level 61, m at next level, right associativity).

Definition ext (c : ext_call) : SM unit :=
  fun st =>
    let (r, w) := external c (fst st) in
    (r, (w, snd st ++ [Call c])).

Definition print (line : pystr) : SM unit :=
  fun st => (Ok tt, (fst st, snd st ++ [Print line])).

Fixpoint print_all (lines : list pystr) : SM unit :=
  match lines with
  | [] => sys_ret tt
  | line :: lines' => _ <- print line ;; print_all lines'
  end.

(** [await self.process_query(query)]: the query runs on the world as it
    is, and its inferences and invocations join the trace. *)
Definition run_query (query : pystr) : SM pystr :=
  fun st =>
    match process_query rt llama session_call_tool query (fst st, []) with
    | (r, (w, events)) => (r, (w, snd st ++ map Step events))
    end.

(** Lines 16-30 *)
Definition connect_to_server (server_script_path : pystr) : SM unit :=
  command <- sys_lift (server_command server_script_path) ;;
  _ <- ext (StdioClient command [server_script_path]) ;;
  _ <- ext EnterSession ;;
  _ <- ext Initialize ;;
  ext ListTools.

(** Lines 165-173: the loop over the lines of the script.  The body of the
    [try] answers whether it left by [break]. *)
Fixpoint chat_turns (inputs : list (outcome pystr)) : SM loop_end :=
  match inputs with
  | [] => sys_ret StillRunning
  | input :: inputs' =>
    left_loop <-
      sys_try
        (line <- sys_lift input ;;
         let query := strip rt line in
         if str_eqb (lower rt query) (lit "quit") then sys_ret true
         else
           result <- run_query query ;;
           _ <- print (nl ++ lit "🗨️ " ++ result ++ nl) ;;
           sys_ret false)
        (fun e => _ <- print (lit "❌ Error: " ++ e) ;; sys_ret false) ;;
    if left_loop then sys_ret Quit else chat_turns inputs'
  end.

(** Lines 158-173 *)
Definition chat_loop (inputs : list (outcome pystr)) : SM loop_end :=
  _ <- print_all banner ;; chat_turns inputs.

(** Lines 175-176 *)
Definition cleanup : SM unit := ext AClose.

(** The [finally] clause of lines 185-189: [cleanup] runs after the body,
    and an exception of its own replaces the outcome of the body. *)
Definition finally_cleanup (body : outcome unit) : sys_state -> main_end * sys_state :=
  fun st =>
    match cleanup st with
    | (Ok _, st') =>
      (match body with Ok _ => Returned | Raise e => Failed e end, st')
    | (Raise e, st') => (Failed e, st')
    end.

(** Lines 179-189, for the command line [argv] and the script [inputs]. *)
Definition main (argv : list pystr) (inputs : list (outcome pystr))
  : sys_state -> main_end * sys_state :=
  fun st =>
    if (List.length argv <? 2)%nat then
      (Exited 1, snd (print usage st))
    else
      match connect_to_server (nth 1 argv []) st with
      | (Raise e, st1) => finally_cleanup (Raise e) st1
      | (Ok _, st1) =>
        match chat_loop inputs st1 with
        | (Ok Quit, st2) => finally_cleanup (Ok tt) st2
        | (Ok StillRunning, st2) => (Waiting, st2)
        | (Raise e, st2) => finally_cleanup (Raise e) st2
        end
      end.
End System.

(** ** Shapes of the remaining statements *)

(** A spelling of [quit] in any mix of ASCII cases. *)
Definition quit_word (q : pystr) : Prop :=
  Forall2 (fun c l => c = l \/ c = l - 32) q (lit "quit").

(** The text that an item contributes through [+=], when it has one. *)
Definition item_text (item : content_item) : option value :=
  match item with
  | TextItem text => Some text
  | DictItem d => dict_get (lit "text") d
  | OtherItem _ => None
  end.

Definition is_dict (v : value) : bool :=
  match v with VDict _ => true | _ => false end.

Definition invocation_of_dict (e : event) : bool :=
  match e with Inference _ => true | Invocation _ args => is_dict args end.

Definition is_str (v : value) : bool :=
  match v with VStr _ => true | _ => false end.

(** The message of the [TypeError] of [tool_output += v] for a [v] that is
    not a string. *)
Definition not_str_error (v : value) : pystr :=
  lit "can only concatenate str (not " ++ js "'" ++ type_name v ++ js "'"
  ++ lit ") to str".

(** Lines 142-145: the history of the second inference. *)
Definition history_after_tool (rt : pyruntime) (query response : pystr)
           (tool_name : value) (tool_output : pystr) : list message :=
  initial_messages query ++
  [Message (lit "assistant") response;
   Message (lit "tool")
           (lit "Tool " ++ py_str rt tool_name ++ lit " result:" ++ nl
            ++ tool_output)].

(** [Tool call error: e] *)
Definition error_marker (e : pystr) : pystr :=
  lit "[Tool call error: " ++ e ++ lit "]".

(** ** Sample inputs *)

Definition alerts_object : pystr :=
  js "{'name': 'get_alerts', 'arguments': {'state': 'CA'}}".

Definition alerts_call : dict :=
  [(lit "name", VStr (lit "get_alerts"));
   (lit "arguments", VDict [(lit "state", VStr (lit "CA"))])].



(** A bare object after prose without braces. *)
Definition bare_text : pystr := lit " Sure! " ++ alerts_object ++ lit " -- done ".









Definition joke_text : pystr := lit "Knock, knock.".


(** A model that always answers [response], and a session whose tool always
    raises, or always returns [result]. *)
Definition constant_llama (response : pystr)
  : list message -> unit -> outcome pystr * unit :=
  fun _ w => (Ok response, w).

Definition failing_tool (e : pystr)
  : value -> value -> unit -> outcome tool_result * unit :=
  fun _ _ w => (Raise e, w).


(** A model that answers [response] once and raises [e] from then on, a
    session whose tool returns [result] in any world, and collaborators
    that accept every external call, or every call but the handshake. *)
Definition once_llama (response e : pystr)
  : list message -> bool -> outcome pystr * bool :=
  fun _ asked => if asked then (Raise e, true) else (Ok response, true).

Definition tool_returning (W : Type) (result : tool_result)
  : value -> value -> W -> outcome tool_result * W :=
  fun _ _ w => (Ok result, w).

Definition quiet_external : ext_call -> unit -> outcome unit * unit :=
  fun _ w => (Ok tt, w).

Definition no_handshake : ext_call -> unit -> outcome unit * unit :=
  fun c w =>
    match c with
    | Initialize => (Raise (lit "handshake failed"), w)
    | _ => (Ok tt, w)
    end.

(** * Properties *)

(** ** Strings *)

Lemma str_eqb_eq (a b : pystr) : str_eqb a b = true <-> a = b.
Proof.
  revert b; induction a as [|x a IH]; intros [|y b]; simpl; split;
    try congruence; try discriminate.
  - intros H. apply andb_true_iff in H as [H1 H2].
    apply N.eqb_eq in H1. apply IH in H2. congruence.
  - intros H. injection H as -> ->. rewrite N.eqb_refl. simpl.
    now apply IH.
Qed.

Lemma str_eqb_refl (a : pystr) : str_eqb a a = true.
Proof. now apply str_eqb_eq. Qed.

Lemma starts_with_app (p r : pystr) : starts_with p (p ++ r) = true.
Proof.
  unfold starts_with. rewrite firstn_app, Nat.sub_diag, firstn_all.
  simpl. rewrite app_nil_r. apply str_eqb_refl.
Qed.

Lemma starts_with_inv (p s : pystr) :
  starts_with p s = true -> s = p ++ skipn (List.length p) s.
Proof.
  unfold starts_with. intros H. apply str_eqb_eq in H.
  rewrite <- (firstn_skipn (List.length p) s) at 1. now rewrite <- H.
Qed.



Lemma last_opt_app (p : option N) (u v : pystr) :
  last_opt p (u ++ v) = last_opt (last_opt p u) v.
Proof. revert p; induction u as [|c u IH]; intros p; simpl; auto. Qed.

Lemma skipn_length_app (u v : pystr) : skipn (List.length u) (u ++ v) = v.
Proof. induction u; simpl; auto. Qed.

Lemma consumed_app (w s : pystr) : consumed (w ++ s) s = w.
Proof.
  unfold consumed. rewrite length_app.
  replace (List.length w + List.length s - List.length s)%nat
    with (List.length w) by lia.
  rewrite firstn_app, Nat.sub_diag, firstn_all. simpl. apply app_nil_r.
Qed.

(** ** The matcher against the meaning of patterns *)

Section RegexFacts.
Variable rt : pyruntime.

Lemma rep_in k g lo hi p s p' s' :
  In (p', s') (rep rt k g lo hi p s) <->
  exists w, s = w ++ s' /\ p' = last_opt p w /\
            Forall (fun c => cls_ok rt k c = true) w /\
            (lo <= List.length w)%nat /\
            (forall h, hi = Some h -> (List.length w <= h)%nat).
Proof.
  revert lo hi p. induction s as [|c s IH]; intros lo hi p.
  - simpl. split.
    + intros H. assert (H' : In (p', s') (if Nat.eqb lo 0 then [(p, [])] else [])).
      { destruct g; simpl in H; auto. now rewrite app_nil_r in H. }
      destruct (Nat.eqb_spec lo 0) as [->|]; simpl in H'; [|tauto].
      destruct H' as [H'|[]]. injection H' as <- <-.
      exists []; repeat split; auto; intros; simpl; lia.
    + intros (w & Hs & -> & Hw & Hlo & Hhi).
      destruct w; [|discriminate]. simpl in *. subst s'.
      replace lo with 0%nat by lia. destruct g; simpl; auto.
  - assert (Hsplit :
      In (p', s') (rep rt k g lo hi p (c :: s)) <->
      (In (p', s') (if cls_ok rt k c && can_more hi
                    then rep rt k g (Nat.pred lo) (dec_hi hi) (Some c) s else [])
       \/ In (p', s') (if Nat.eqb lo 0 then [(p, c :: s)] else []))).
    { simpl. destruct g; rewrite in_app_iff; tauto. }
    rewrite Hsplit. clear Hsplit. split.
    + intros [H|H].
      * destruct (cls_ok rt k c) eqn:Hc; simpl in H; [|tauto].
        destruct (can_more hi) eqn:Hm; simpl in H; [|tauto].
        apply IH in H as (w & -> & -> & Hw & Hlo & Hhi).
        exists (c :: w). repeat split; auto.
        -- simpl; lia.
        -- intros h ->. simpl in *. destruct h; [discriminate|].
           specialize (Hhi h eq_refl). lia.
      * destruct (Nat.eqb_spec lo 0) as [->|]; simpl in H; [|tauto].
        destruct H as [H|[]]. injection H as <- <-.
        exists []; repeat split; auto; intros; simpl; lia.
    + intros (w & Hs & -> & Hw & Hlo & Hhi).
      destruct w as [|x w]; simpl in Hs.
      * right. subst s'. simpl in Hlo. replace lo with 0%nat by lia.
        simpl. auto.
      * left. injection Hs as <- ->. inversion Hw as [|? ? Hc Hw']; subst.
        rewrite Hc. simpl.
        assert (Hm : can_more hi = true).
        { destruct hi as [[|h]|]; auto. specialize (Hhi 0%nat eq_refl).
          simpl in Hhi. lia. }
        rewrite Hm. apply IH. exists w. repeat split; auto.
        -- simpl in Hlo. lia.
        -- intros h Hh. destruct hi as [h0|]; [|discriminate].
           simpl in Hh. injection Hh as <-. specialize (Hhi h0 eq_refl).
           simpl in Hhi. lia.
Qed.

(** Every way the matcher finds is a match in the sense of [rmatch]. *)
Lemma re_match_sound r : forall st st',
  In st' (re_match rt r st) ->
  exists w, rest st = w ++ rest st' /\ prev st' = last_opt (prev st) w /\
            rmatch rt r (prev st) w (rest st') (caps st) (caps st').
Proof.
  induction r as [k|k lo hi g|w0|a IHa b IHb|a IHa b IHb|i a IHa|];
    intros st st' H; simpl in H.
  - destruct (rest st) as [|c s] eqn:E; [now simpl in H|].
    destruct (cls_ok rt k c) eqn:Hc; [|now simpl in H].
    destruct H as [<-|[]]. simpl. exists [c]. repeat split; auto.
    now constructor.
  - apply in_map_iff in H as ([p' s'] & <- & H). simpl.
    apply rep_in in H as (w & Hs & -> & Hw & Hlo & Hhi).
    exists w. repeat split; auto. now constructor.
  - destruct (starts_with w0 (rest st)) eqn:E; [|now simpl in H].
    destruct H as [<-|[]]. simpl. exists w0. repeat split.
    + now apply starts_with_inv.
    + constructor.
  - apply in_flat_map in H as (st1 & H1 & H2).
    apply IHa in H1 as (w1 & Hs1 & Hp1 & Hm1).
    apply IHb in H2 as (w2 & Hs2 & Hp2 & Hm2).
    exists (w1 ++ w2). repeat split.
    + rewrite Hs1, Hs2. now rewrite app_assoc.
    + rewrite Hp2, Hp1. now rewrite last_opt_app.
    + econstructor.
      * rewrite <- Hs2. exact Hm1.
      * rewrite <- Hp1. exact Hm2.
  - apply in_app_iff in H as [H|H].
    + apply IHa in H as (w & Hs & Hp & Hm). exists w. repeat split; auto.
      now apply rm_alt_l.
    + apply IHb in H as (w & Hs & Hp & Hm). exists w. repeat split; auto.
      now apply rm_alt_r.
  - apply in_map_iff in H as (st1 & <- & H). simpl.
    apply IHa in H as (w & Hs & Hp & Hm). exists w. repeat split; auto.
    rewrite Hs, consumed_app. now constructor.
  - destruct (xorb _ _) eqn:E; [|now simpl in H].
    destruct H as [<-|[]]. exists []. repeat split; auto. now constructor.
Qed.

(** Every match in the sense of [rmatch] is among those the matcher finds. *)
Lemma re_match_complete r p w s cs cs' :
  rmatch rt r p w s cs cs' ->
  In (MState cs' (last_opt p w) s) (re_match rt r (MState cs p (w ++ s))).
Proof.
  induction 1 as [k c p s cs Hc|k lo hi g w p s cs Hw Hlo Hhi|w p s cs
                  |a b w1 w2 p s cs cs1 cs2 H1 IH1 H2 IH2
                  |a b w p s cs cs1 H IH|a b w p s cs cs1 H IH
                  |i a w p s cs cs1 H IH|p s cs Hx]; simpl.
  - rewrite Hc. simpl. auto.
  - apply in_map_iff. exists (last_opt p w, s). split; auto.
    apply rep_in. exists w. repeat split; auto.
  - rewrite starts_with_app, skipn_length_app. simpl. auto.
  - apply in_flat_map. exists (MState cs1 (last_opt p w1) (w2 ++ s)). split.
    + rewrite <- app_assoc. exact IH1.
    + rewrite last_opt_app. exact IH2.
  - apply in_app_iff. now left.
  - apply in_app_iff. now right.
  - apply in_map_iff. exists (MState cs1 (last_opt p w) s). split; auto.
    simpl. now rewrite consumed_app.
  - rewrite Hx. simpl. auto.
Qed.

(** [re.search] reports the head of the matches at the leftmost position
    that has one. *)
Lemma search_from_some r : forall s p m,
  search_from rt r p s = Some m ->
  exists pre suf,
    s = pre ++ suf /\
    hd_error (re_match rt r (MState [] (last_opt p pre) suf)) = Some m /\
    (forall pre1 suf1, s = pre1 ++ suf1 ->
       (List.length pre1 < List.length pre)%nat ->
       re_match rt r (MState [] (last_opt p pre1) suf1) = []).
Proof.
  induction s as [|c s IH]; intros p m H; simpl in H.
  - destruct (re_match rt r (MState [] p [])) as [|m0 ms] eqn:E; [discriminate|].
    injection H as ->. exists [], []. simpl. rewrite E. repeat split; auto.
    intros; lia.
  - destruct (re_match rt r (MState [] p (c :: s))) as [|m0 ms] eqn:E.
    + apply IH in H as (pre & suf & -> & Hh & Hmin).
      exists (c :: pre), suf. repeat split; auto.
      intros [|x pre1] suf1 Hs Hl.
      * simpl in Hs. subst suf1. exact E.
      * simpl in Hs. injection Hs as <- Hs. simpl. apply Hmin; auto.
        simpl in Hl. lia.
    + injection H as ->. exists [], (c :: s). simpl. rewrite E.
      repeat split; auto. intros; lia.
Qed.


Lemma search_from_found r : forall pre suf p m ms,
  (forall pre1 suf1, pre ++ suf = pre1 ++ suf1 ->
     (List.length pre1 < List.length pre)%nat ->
     re_match rt r (MState [] (last_opt p pre1) suf1) = []) ->
  re_match rt r (MState [] (last_opt p pre) suf) = m :: ms ->
  search_from rt r p (pre ++ suf) = Some m.
Proof.
  induction pre as [|c pre IH]; intros suf p m ms Hmin Hm.
  - simpl in *. destruct suf; simpl; rewrite Hm; reflexivity.
  - assert (E0 := Hmin [] (c :: pre ++ suf) eq_refl ltac:(simpl; lia)).
    simpl in E0. simpl. rewrite E0.
    apply IH with ms; auto.
    intros pre1 suf1 Hs Hl. apply (Hmin (c :: pre1) suf1).
    + simpl. now rewrite Hs.
    + simpl. lia.
Qed.

Lemma search_from_not_found r s p :
  (forall pre suf, s = pre ++ suf ->
     re_match rt r (MState [] (last_opt p pre) suf) = []) ->
  search_from rt r p s = None.
Proof.
  intros H. destruct (search_from rt r p s) as [m|] eqn:E; auto.
  apply search_from_some in E as (pre & suf & Hs & Hh & _).
  rewrite (H pre suf Hs) in Hh. discriminate.
Qed.


End RegexFacts.

(** ** The four patterns *)

Ltac inv_rm :=
  repeat match goal with
  | H : rmatch _ (RCat _ _) _ _ _ _ _ |- _ => inversion H; subst; clear H
  | H : rmatch _ (RGrp _ _) _ _ _ _ _ |- _ => inversion H; subst; clear H
  | H : rmatch _ (RChr _) _ _ _ _ _ |- _ => inversion H; subst; clear H
  | H : rmatch _ (RRep _ _ _ _) _ _ _ _ _ |- _ => inversion H; subst; clear H
  | H : rmatch _ (RStr _) _ _ _ _ _ |- _ => inversion H; subst; clear H
  | H : rmatch _ (RAlt _ _) _ _ _ _ _ |- _ => inversion H; subst; clear H
  | H : rmatch _ RWordB _ _ _ _ _ |- _ => inversion H; subst; clear H
  end.

Section PatternFacts.
Variable rt : pyruntime.





End PatternFacts.

(** ** The order of the matches *)

Section Priority.
Variable rt : pyruntime.

Lemma hd_error_in {A} (l : list A) (x : A) : hd_error l = Some x -> In x l.
Proof. destruct l; simpl; [discriminate|]. intros [= ->]. now left. Qed.



Lemma in_nonempty {A} (l : list A) (x : A) :
  In x l -> exists m ms, l = m :: ms.
Proof. destruct l; [intros []|eauto]. Qed.




End Priority.

(** ** [re.search] in terms of the meaning of the pattern *)

Section SearchFacts.
Variable rt : pyruntime.

Lemma re_search_some r t m :
  re_search rt r t = Some m ->
  exists pre w,
    t = pre ++ w ++ rest m /\
    rmatch rt r (last_opt None pre) w (rest m) [] (caps m) /\
    hd_error (re_match rt r (MState [] (last_opt None pre) (w ++ rest m))) = Some m /\
    (forall pre' w' post' cs',
        t = pre' ++ w' ++ post' ->
        rmatch rt r (last_opt None pre') w' post' [] cs' ->
        (List.length pre <= List.length pre')%nat).
Proof.
  intros H. apply search_from_some in H as (pre & suf & -> & Hh & Hmin).
  pose proof (hd_error_in _ Hh) as Hin.
  apply re_match_sound in Hin as (w & Hs & _ & Hm). simpl in Hs, Hm.
  exists pre, w. subst suf. repeat split; auto.
  intros pre' w' post' cs' Ht Hm'.
  destruct (Nat.le_gt_cases (List.length pre) (List.length pre')) as [|Hlt]; auto.
  apply re_match_complete in Hm'.
  rewrite (Hmin pre' (w' ++ post') Ht Hlt) in Hm'. destruct Hm'.
Qed.



Lemma re_search_absent r t :
  (forall pre w post cs',
      t = pre ++ w ++ post -> ~ rmatch rt r (last_opt None pre) w post [] cs') ->
  re_search rt r t = None.
Proof.
  intros H. destruct (re_search rt r t) as [m|] eqn:E; auto.
  apply re_search_some in E as (pre & w & Ht & Hm & _).
  exfalso. eapply H; eauto.
Qed.

(** *** Coordinates *)




End SearchFacts.

(** *** The state token *)

Section StateFacts.
Variable rt : pyruntime.











End StateFacts.

(** *** The two patterns of the structured extraction *)

Section ObjectPatterns.
Variable rt : pyruntime.




Lemma cls_char_eq c x : cls_ok rt (CChar c) x = true -> x = c.
Proof. simpl. apply N.eqb_eq. Qed.

Lemma fence_re_rmatch_inv p w s cs cs' :
  rmatch rt fence_re p w s cs cs' ->
  exists ws1 body ws2,
    w = lit "```json" ++ ws1 ++ ([123] ++ body ++ [125]) ++ ws2 ++ lit "```" /\
    all_space rt ws1 /\ all_space rt ws2 /\
    cs' = (1%nat, [123] ++ body ++ [125]) :: cs.
Proof.
  unfold fence_re, fence_tail, star. intros H. inv_rm.
  repeat match goal with
         | H : cls_ok rt (CChar _) _ = true |- _ => apply cls_char_eq in H; subst
         end.
  match goal with
  | |- exists _ _ _, _ ++ ?a ++ (_ ++ ?b ++ _) ++ ?c ++ _ = _ /\ _ =>
    exists a, b, c
  end.
  repeat split; auto.
Qed.


Lemma bare_re_rmatch_inv p w s cs cs' :
  rmatch rt bare_re p w s cs cs' ->
  exists m1 m2,
    w = [123] ++ m1 ++ js "'name'" ++ m2 ++ [125] /\ cs' = (1%nat, w) :: cs.
Proof.
  unfold bare_re, star. intros H. inv_rm.
  repeat match goal with
         | H : cls_ok rt (CChar _) _ = true |- _ => apply cls_char_eq in H; subst
         end.
  match goal with
  | |- exists _ _, _ ++ ?a ++ _ ++ ?b ++ _ = _ /\ _ => exists a, b
  end.
  split; reflexivity.
Qed.


End ObjectPatterns.

(** ** [json.loads] on the text of an object *)

Ltac break_match H :=
  match type of H with
  | context [match ?x with _ => _ end] => destruct x eqn:?
  end.

Lemma parse_pairs_dict : forall f acc s v r,
  parse_pairs f acc s = JOk v r -> exists d, v = VDict d.
Proof.
  induction f as [|f IH]; intros acc s v r H; simpl in H; [discriminate|].
  repeat (break_match H; try discriminate).
  - injection H as <- _. eauto.
  - eapply IH; eauto.
Qed.

Lemma scan_once_object f s v r :
  scan_once f (123 :: s) = JOk v r -> exists d, v = VDict d.
Proof.
  destruct f as [|f]; simpl; [discriminate|]. intros H.
  repeat (break_match H; try discriminate).
  - injection H as <- _. eauto.
  - eapply parse_pairs_dict; eauto.
Qed.

(** A text that begins with a brace decodes to a mapping or not at all. *)
Lemma json_loads_object s v :
  json_loads (123 :: s) = Some v -> exists d, v = VDict d.
Proof.
  unfold json_loads. change (skip_ws (123 :: s)) with (123 :: s). intros H.
  destruct (scan_once _ _) as [v0 r| |] eqn:E; try discriminate.
  apply scan_once_object in E as [d ->].
  destruct (skip_ws r); [|discriminate]. injection H as <-. eauto.
Qed.

(** ** The fuel of the JSON scanner *)

Lemma drop_while_le f (s : pystr) :
  (List.length (drop_while f s) <= List.length s)%nat.
Proof.
  induction s as [|c s IH]; simpl; auto. destruct (f c); simpl; lia.
Qed.

Lemma push_some c X w r :
  push c X = Some (w, r) -> exists w', X = Some (w', r).
Proof.
  destruct X as [[w' r']|]; simpl; [|discriminate]. intros [= _ <-]. eauto.
Qed.

Lemma scanstring_shrinks : forall n s, (List.length s <= n)%nat ->
  forall w r, scanstring s = Some (w, r) ->
  (List.length r < List.length s)%nat.
Proof.
  induction n as [|n IH]; intros s Hn w r H.
  - destruct s; [discriminate|simpl in Hn; lia].
  - destruct s as [|c s1]; [discriminate|]. simpl in Hn.
    cbn [scanstring] in H.
    repeat (break_match H; try discriminate);
      try (injection H as <- <-; simpl; lia);
      apply push_some in H as [w' H]; apply IH in H; simpl in *; lia.
Qed.

Lemma int_part_shrinks s ds r :
  int_part s = Some (ds, r) -> (List.length r < List.length s)%nat.
Proof.
  unfold int_part. destruct s as [|d s]; [discriminate|].
  destruct (in_range 49 57 d).
  - intros [= _ <-]. unfold drop_digits. pose proof (drop_while_le is_digit s).
    simpl. lia.
  - destruct (d =? 48); [|discriminate]. intros [= _ <-]. simpl. lia.
Qed.

Lemma after_frac_le s r :
  after_frac s = Some r -> (List.length r <= List.length s)%nat.
Proof.
  unfold after_frac. destruct s as [|p [|d s]]; try discriminate.
  destruct (_ && _); [|discriminate]. intros [= <-].
  unfold drop_digits. pose proof (drop_while_le is_digit s). simpl. lia.
Qed.

Lemma after_exp_le s r :
  after_exp s = Some r -> (List.length r <= List.length s)%nat.
Proof.
  unfold after_exp. destruct s as [|e s1]; [discriminate|].
  destruct (_ || _); [|discriminate].
  destruct s1 as [|g s2]; [discriminate|].
  destruct ((g =? 43) || (g =? 45)).
  - destruct s2 as [|d s3]; [discriminate|].
    destruct (is_digit d); [|discriminate]. intros [= <-].
    unfold drop_digits. pose proof (drop_while_le is_digit s3). simpl. lia.
  - destruct (is_digit g); [|discriminate]. intros [= <-].
    unfold drop_digits. pose proof (drop_while_le is_digit s2). simpl. lia.
Qed.

Lemma match_number_shrinks s v r :
  match_number s = Some (v, r) -> (List.length r < List.length s)%nat.
Proof.
  unfold match_number.
  set (s0 := if match s with c :: _ => c =? 45 | [] => false end then tl s else s).
  assert (H0 : (List.length s0 <= List.length s)%nat).
  { unfold s0. destruct s as [|c s]; simpl; auto. destruct (c =? 45); simpl; lia. }
  destruct (int_part s0) as [[ds s1]|] eqn:Ei; [|discriminate].
  apply int_part_shrinks in Ei. intros [= _ <-].
  destruct (after_frac s1) as [r1|] eqn:Ef.
  - apply after_frac_le in Ef. destruct (after_exp r1) as [r2|] eqn:Ee.
    + apply after_exp_le in Ee. lia.
    + lia.
  - destruct (after_exp s1) as [r2|] eqn:Ee.
    + apply after_exp_le in Ee. lia.
    + lia.
Qed.

Lemma skip_ws_le s : (List.length (skip_ws s) <= List.length s)%nat.
Proof. apply drop_while_le. Qed.

Lemma scan_once_eq f s :
  scan_once (S f) s =
  match s with
  | [] => JErr
  | c :: s1 =>
    if c =? 34 then
      match scanstring s1 with
      | Some (w, r) => JOk (VStr w) r
      | None => JErr
      end
    else if c =? 123 then
      match skip_ws s1 with
      | c1 :: s2 => if c1 =? 125 then JOk (VDict []) s2
                    else parse_pairs f [] (c1 :: s2)
      | [] => JErr
      end
    else if c =? 91 then
      match skip_ws s1 with
      | c1 :: s2 => if c1 =? 93 then JOk (VList []) s2
                    else parse_elems f [] (c1 :: s2)
      | [] => JErr
      end
    else if starts_with (lit "null") s then JOk VNone (skipn 4 s)
    else if starts_with (lit "true") s then JOk (VBool true) (skipn 4 s)
    else if starts_with (lit "false") s then JOk (VBool false) (skipn 5 s)
    else if starts_with (lit "NaN") s then JOk (VFloat FNan) (skipn 3 s)
    else if starts_with (lit "Infinity") s then JOk (VFloat (FInf false)) (skipn 8 s)
    else if starts_with (lit "-Infinity") s then JOk (VFloat (FInf true)) (skipn 9 s)
    else
      match match_number s with
      | Some (v, r) => JOk v r
      | None => JErr
      end
  end.
Proof. reflexivity. Qed.

Lemma parse_pairs_eq f acc s :
  parse_pairs (S f) acc s =
  match s with
  | [] => JErr
  | q :: s1 =>
    if q =? 34 then
      match scanstring s1 with
      | None => JErr
      | Some (key, s2) =>
        match skip_ws s2 with
        | [] => JErr
        | colon :: s3 =>
          if colon =? 58 then
            match scan_once f (skip_ws s3) with
            | JOk v s4 =>
              match skip_ws s4 with
              | [] => JErr
              | c :: s5 =>
                if c =? 125 then JOk (VDict (dict_set key v acc)) s5
                else if c =? 44 then parse_pairs f (dict_set key v acc) (skip_ws s5)
                else JErr
              end
            | JErr => JErr
            | JFuel => JFuel
            end
          else JErr
        end
      end
    else JErr
  end.
Proof. reflexivity. Qed.

Lemma parse_elems_eq f acc s :
  parse_elems (S f) acc s =
  match scan_once f s with
  | JOk v s1 =>
    match skip_ws s1 with
    | [] => JErr
    | c :: s2 =>
      if c =? 93 then JOk (VList (acc ++ [v])) s2
      else if c =? 44 then parse_elems f (acc ++ [v]) (skip_ws s2)
      else JErr
    end
  | JErr => JErr
  | JFuel => JFuel
  end.
Proof. reflexivity. Qed.

Ltac shrink_facts :=
  repeat match goal with
  | H : scanstring _ = Some _ |- _ =>
    eapply scanstring_shrinks in H; [|apply le_n]
  | H : match_number _ = Some _ |- _ => apply match_number_shrinks in H
  | H : skip_ws ?s = _ |- _ =>
    let L := fresh "L" in
    pose proof (skip_ws_le s) as L; rewrite H in L; clear H
  end.

Lemma scan_shrinks : forall f,
  (forall s v r, scan_once f s = JOk v r ->
                 (List.length r < List.length s)%nat) /\
  (forall acc s v r, parse_pairs f acc s = JOk v r ->
                     (List.length r < List.length s)%nat) /\
  (forall acc s v r, parse_elems f acc s = JOk v r ->
                     (List.length r < List.length s)%nat).
Proof.
  induction f as [|f (IHs & IHp & IHe)]; [repeat split; discriminate|].
  repeat split.
  - intros s v r H. rewrite scan_once_eq in H.
    repeat (break_match H; try discriminate); shrink_facts;
      try (injection H as _ <-);
      try (apply IHp in H); try (apply IHe in H);
      simpl in *; try lia;
      repeat match goal with
             | |- context [match ?l with _ => _ end] =>
               destruct l; simpl in *; try lia
             end.
  - intros acc s v r H. rewrite parse_pairs_eq in H.
    repeat (break_match H; try discriminate); shrink_facts;
      repeat match goal with
             | E : scan_once f _ = JOk _ _ |- _ => apply IHs in E
             end;
      try (injection H as _ <-); try (apply IHp in H);
      repeat match goal with
             | |- context [skip_ws ?s] => pose proof (skip_ws_le s); fail
             | E : context [skip_ws ?s] |- _ =>
               lazymatch goal with
               | _ : (List.length (skip_ws s) <= List.length s)%nat |- _ => fail
               | _ => pose proof (skip_ws_le s)
               end
             end;
      simpl in *; lia.
  - intros acc s v r H. rewrite parse_elems_eq in H.
    repeat (break_match H; try discriminate); shrink_facts;
      repeat match goal with
             | E : scan_once f _ = JOk _ _ |- _ => apply IHs in E
             end;
      try (injection H as _ <-); try (apply IHe in H);
      repeat match goal with
             | E : context [skip_ws ?s] |- _ =>
               lazymatch goal with
               | _ : (List.length (skip_ws s) <= List.length s)%nat |- _ => fail
               | _ => pose proof (skip_ws_le s)
               end
             end;
      simpl in *; lia.
Qed.

Ltac break_goal :=
  match goal with
  | |- context [match ?x with _ => _ end] => destruct x eqn:?
  end.

Ltac scan_facts f :=
  repeat match goal with
  | E : scan_once f _ = JOk _ _ |- _ => apply (proj1 (scan_shrinks f)) in E
  end.

Ltac fuel_leaf IHs IHp IHe :=
  try discriminate;
  try (exfalso;
       match goal with
       | E : scan_once _ ?s = JFuel |- _ => apply (IHs s); [|exact E]
       end);
  try apply IHp; try apply IHe;
  simpl in *; lia.

(** The fuel [json_loads] gives to the scanner is never used up. *)
Lemma scan_fuel : forall f,
  (forall s, (2 * List.length s + 1 <= f)%nat -> scan_once f s <> JFuel) /\
  (forall acc s, (2 * List.length s + 2 <= f)%nat ->
                 parse_pairs f acc s <> JFuel) /\
  (forall acc s, (2 * List.length s + 2 <= f)%nat ->
                 parse_elems f acc s <> JFuel).
Proof.
  induction f as [|f (IHs & IHp & IHe)].
  - repeat split; intros; lia.
  - repeat split.
    + intros s Hf. rewrite scan_once_eq.
      repeat break_goal; shrink_facts; fuel_leaf IHs IHp IHe.
    + intros acc s Hf. rewrite parse_pairs_eq.
      repeat break_goal; shrink_facts; scan_facts f;
        repeat match goal with
               | |- context [skip_ws ?s] =>
                 lazymatch goal with
                 | _ : (List.length (skip_ws s) <= List.length s)%nat |- _ => fail
                 | _ => pose proof (skip_ws_le s)
                 end
               | E : context [skip_ws ?s] |- _ =>
                 lazymatch goal with
                 | _ : (List.length (skip_ws s) <= List.length s)%nat |- _ => fail
                 | _ => pose proof (skip_ws_le s)
                 end
               end;
        fuel_leaf IHs IHp IHe.
    + intros acc s Hf. rewrite parse_elems_eq.
      repeat break_goal; shrink_facts; scan_facts f;
        repeat match goal with
               | |- context [skip_ws ?s] =>
                 lazymatch goal with
                 | _ : (List.length (skip_ws s) <= List.length s)%nat |- _ => fail
                 | _ => pose proof (skip_ws_le s)
                 end
               end;
        fuel_leaf IHs IHp IHe.
Qed.

Lemma scan_once_fuel s : scan_once (2 * List.length s + 1) s <> JFuel.
Proof. apply (proj1 (scan_fuel _)). lia. Qed.

(** [json.loads] fails only on an error of the scanner or on text left
    after the term, never for lack of fuel. *)
Lemma json_loads_none s :
  json_loads s = None ->
  let s0 := skip_ws s in
  scan_once (2 * List.length s0 + 1) s0 = JErr \/
  exists v r, scan_once (2 * List.length s0 + 1) s0 = JOk v r /\ skip_ws r <> [].
Proof.
  unfold json_loads. intros H. cbv zeta in *.
  pose proof (scan_once_fuel (skip_ws s)) as Hf.
  set (s0 := skip_ws s) in *.
  destruct (scan_once (2 * List.length s0 + 1) s0) as [v r| |]; auto;
    [|congruence].
  right. exists v, r. split; auto. destruct (skip_ws r); discriminate.
Qed.

(** ** The structured extraction *)

Section ExtractionFacts.
Variable rt : pyruntime.

Lemma find_object_group t m :
  find_object rt t = Some m ->
  exists body, caps m = [(1%nat, [123] ++ body ++ [125])].
Proof.
  unfold find_object. intros H.
  destruct (re_search rt fence_re t) as [m1|] eqn:E1.
  - injection H as ->. apply re_search_some in E1 as (pre & w & _ & Hm & _).
    apply fence_re_rmatch_inv in Hm as (ws1 & body & ws2 & _ & _ & _ & Hc).
    eauto.
  - apply re_search_some in H as (pre & w & _ & Hm & _).
    apply bare_re_rmatch_inv in Hm as (m1 & m2 & -> & Hc).
    exists (m1 ++ js "'name'" ++ m2). rewrite Hc.
    now rewrite <- !app_assoc.
Qed.

(** The structured extraction returns a mapping with a [name], or falls
    through; it never raises. *)
Lemma strategy_A_cases t :
  strategy_A rt t = Ok None \/
  exists d, strategy_A rt t = Ok (Some (VDict d)) /\ dict_has (lit "name") d = true.
Proof.
  unfold strategy_A. destruct (find_object rt t) as [m|] eqn:E; auto.
  apply find_object_group in E as [body ->]. simpl.
  destruct (json_loads (123 :: body ++ [125])) as [v|] eqn:Ej; auto.
  apply json_loads_object in Ej as [d ->]. simpl.
  destruct (dict_has (lit "name") d) eqn:Hn; eauto.
Qed.

Lemma strategy_B_cases t :
  strategy_B rt t = None \/
  exists name args, strategy_B rt t = Some (call name args).
Proof.
  unfold strategy_B.
  destruct (forecast_keyword _).
  - destruct (re_findall rt latlon_re t); eauto.
  - destruct (alert_keyword _); auto.
    destruct (re_search rt state_re t); eauto.
Qed.

Lemma detect_cases text :
  detect_weather_tool_call rt text = Ok None \/
  exists d, detect_weather_tool_call rt text = Ok (Some (VDict d)) /\
            dict_has (lit "name") d = true.
Proof.
  unfold detect_weather_tool_call.
  destruct (strategy_A_cases (strip rt text)) as [->|(d & -> & Hd)]; eauto.
  destruct (strategy_B_cases (strip rt text)) as [->|(name & args & ->)]; auto.
  right. eexists. split; reflexivity.
Qed.

End ExtractionFacts.

(** ** Where the two object patterns match *)

Section ListFacts.
Context {A : Type}.
Implicit Types a b c d : list A.






End ListFacts.

Section ObjectSearch.
Variable rt : pyruntime.






End ObjectSearch.

Section FenceSearch.
Variable rt : pyruntime.







End FenceSearch.

Section FenceFound.
Variable rt : pyruntime.




End FenceFound.

(** ** [strip] around a text that begins and ends with a visible character *)

Section StripFacts.
Variable rt : pyruntime.



Lemma drop_while_suffix f (s : pystr) : exists a, s = a ++ drop_while f s.
Proof.
  induction s as [|c s [a IH]]; simpl.
  - now exists [].
  - destruct (f c).
    + exists (c :: a). simpl. now rewrite <- IH.
    + now exists [].
Qed.




Lemma strip_inside t : exists a b, t = a ++ strip rt t ++ b.
Proof.
  unfold strip, rstrip, lstrip.
  destruct (drop_while_suffix (isspace rt) t) as [a Ha].
  destruct (drop_while_suffix (isspace rt) (rev (drop_while (isspace rt) t)))
    as [b Hb].
  exists a, (rev b). rewrite <- rev_app_distr, <- Hb, rev_involutive. exact Ha.
Qed.


End StripFacts.



(** * The specification of [_detect_weather_tool_call] *)

Section DetectorClaims.
Variable rt : pyruntime.





(** A text without an opening brace holds no structured object: Strategy A
    returns nothing. *)
Lemma no_brace_no_object text :
  ~ In 123 text -> strategy_A rt (strip rt text) = Ok None.
Proof.
  intros Hno.
  assert (Hs : ~ In 123 (strip rt text)).
  { intros H. apply Hno. destruct (strip_inside rt text) as (a & b & E).
    rewrite E. apply in_or_app. right. apply in_or_app. now left. }
  unfold strategy_A, find_object.
  assert (Hf : re_search rt fence_re (strip rt text) = None).
  { apply re_search_absent. intros pre w post cs' Ht Hm.
    apply fence_re_rmatch_inv in Hm as (ws1 & body & ws2 & -> & _).
    apply Hs. rewrite Ht. apply in_or_app. right. apply in_or_app. left.
    apply in_or_app. right. apply in_or_app. right. apply in_or_app. left.
    now left. }
  assert (Hb : re_search rt bare_re (strip rt text) = None).
  { apply re_search_absent. intros pre w post cs' Ht Hm.
    apply bare_re_rmatch_inv in Hm as (m1 & m2 & -> & _).
    apply Hs. rewrite Ht. apply in_or_app. right. apply in_or_app. left.
    now left. }
  now rewrite Hf, Hb.
Qed.






End DetectorClaims.

(** * The specification of [process_query] *)

(** C4.  The coercion of the arguments is total and follows the table: a
    mapping is returned as it is; a non-empty list gives its first element
    when that is a mapping and the empty mapping otherwise; anything else
    gives the empty mapping. *)
Theorem C4_argument_normalizer :
  (forall d, coerce_args (VDict d) = VDict d) /\
  (forall d others, coerce_args (VList (VDict d :: others)) = VDict d) /\
  (forall first others,
      (forall d, first <> VDict d) ->
      coerce_args (VList (first :: others)) = VDict []) /\
  (forall v,
      (forall d, v <> VDict d) ->
      (forall first others, v <> VList (first :: others)) ->
      coerce_args v = VDict []).
Proof.
  repeat split.
  - intros first others H. destruct first; simpl; auto. now destruct (H d).
  - intros v Hd Hl. destruct v as [| | | | |l|d]; simpl; auto.
    + destruct l as [|first others]; auto. now destruct (Hl first others).
    + now destruct (Hd d).
Qed.

Section PipelineClaims.
Variable rt : pyruntime.
Variable World : Type.
Variable llama : list message -> World -> outcome pystr * World.
Variable session_call_tool :
  value -> value -> World -> outcome tool_result * World.

Lemma detected_truthy text v :
  detect_weather_tool_call rt text = Ok (Some v) -> truthy rt v = true.
Proof.
  intros H. destruct (detect_cases rt text) as [E|(d & E & Hd)];
    rewrite E in H; [discriminate|]. injection H as <-.
  destruct d; [discriminate|reflexivity].
Qed.

(** C9.  A detected call is a mapping with the key [name]: it is true in a
    condition and the lookup of its name succeeds. *)
Theorem C9_detected_call_has_name text v :
  detect_weather_tool_call rt text = Ok (Some v) ->
  exists d name,
    v = VDict d /\ dict_has (lit "name") d = true /\
    truthy rt v = true /\ subscript v (lit "name") = Ok name.
Proof.
  intros H. pose proof (detected_truthy _ H) as Ht.
  destruct (detect_cases rt text) as [E|(d & E & Hd)];
    rewrite E in H; [discriminate|]. injection H as <-.
  unfold dict_has in Hd. simpl.
  destruct (dict_get (lit "name") d) as [name|] eqn:En; [|discriminate].
  exists d, name. repeat split; auto. unfold dict_has. now rewrite En.
Qed.



(** A [text] that is not a string cannot be appended: the loop raises, and
    the handler of [process_query] turns that into its error marker. *)
Lemma render_items_not_text acc v items :
  (forall s, v <> VStr s) ->
  exists e, render_items rt acc (TextItem v :: items) = Raise e.
Proof.
  intros Hv. destruct v; simpl; eauto. now destruct (Hv s).
Qed.

(** C8.  When no tool call is detected in the model's output, the answer
    is that output alone, after one inference and no invocation. *)
Theorem C8_no_tool_call query w0 tr response w1 :
  llama (initial_messages query) w0 = (Ok response, w1) ->
  detect_weather_tool_call rt response = Ok None ->
  process_query rt llama session_call_tool query (w0, tr)
  = (Ok response, (w1, tr ++ [Inference (initial_messages query)])).
Proof.
  intros Hl Hd. unfold process_query, bind, call_llama, lift, ret. simpl.
  rewrite Hl, Hd. reflexivity.
Qed.



End PipelineClaims.

(** * The specification on sample inputs *)





Ltac by_running := vm_compute; reflexivity.





Lemma C4_witness :
  coerce_args (VList [VInt 1; VInt 2]) = VDict [] /\
  coerce_args (VList []) = VDict [] /\
  coerce_args (VStr (lit "CA")) = VDict [] /\
  coerce_args VNone = VDict [].
Proof.
  destruct C4_argument_normalizer as (_ & _ & Hfirst & Helse).
  split; [|split; [|split]].
  - apply Hfirst. discriminate.
  - apply Helse; discriminate.
  - apply Helse; discriminate.
  - apply Helse; discriminate.
Defined.


Lemma C9_witness :
  detect_weather_tool_call ascii_runtime bare_text = Ok (Some (VDict alerts_call)) /\
  exists d name,
    VDict alerts_call = VDict d /\ dict_has (lit "name") d = true /\
    truthy ascii_runtime (VDict alerts_call) = true /\
    subscript (VDict alerts_call) (lit "name") = Ok name.
Proof.
  split; [by_running|].
  apply (@C9_detected_call_has_name ascii_runtime bare_text). by_running.
Defined.



Lemma C8_witness :
  let query := lit "Tell me a joke" in
  constant_llama joke_text (initial_messages query) tt = (Ok joke_text, tt) /\
  detect_weather_tool_call ascii_runtime joke_text = Ok None /\
  process_query ascii_runtime (constant_llama joke_text)
                (failing_tool (lit "unused")) query (tt, [])
  = (Ok joke_text, (tt, [Inference (initial_messages query)])).
Proof.
  intros query. split; [reflexivity|]. split; [by_running|].
  refine (@C8_no_tool_call ascii_runtime unit (constant_llama joke_text)
            (failing_tool (lit "unused")) query tt [] joke_text tt _ _);
    by_running.
Defined.


(** * Further properties of the client *)

(** ** White space around the model's output *)

Section StripMore.
Variable rt : pyruntime.

Lemma drop_while_all f (s t : pystr) :
  Forall (fun c => f c = true) s -> drop_while f (s ++ t) = drop_while f t.
Proof.
  induction 1 as [|c s Hc _ IH]; simpl; auto. now rewrite Hc.
Qed.

Lemma drop_while_nil f (s : pystr) :
  drop_while f s = [] -> Forall (fun c => f c = true) s.
Proof.
  induction s as [|c s IH]; simpl; intros H; [constructor|].
  destruct (f c) eqn:Hc; [|discriminate]. constructor; auto.
Qed.

Lemma drop_while_app_keep f (a b : pystr) :
  drop_while f a <> [] -> drop_while f (a ++ b) = drop_while f a ++ b.
Proof.
  induction a as [|c a IH]; simpl; intros H; [congruence|].
  destruct (f c); auto.
Qed.

Lemma lstrip_space ws t : all_space rt ws -> lstrip rt (ws ++ t) = lstrip rt t.
Proof. intros H. now apply drop_while_all. Qed.

Lemma rstrip_space t ws : all_space rt ws -> rstrip rt (t ++ ws) = rstrip rt t.
Proof.
  intros H. unfold rstrip. rewrite rev_app_distr.
  rewrite drop_while_all; auto. now apply Forall_rev.
Qed.

Lemma strip_space ws1 t ws2 :
  all_space rt ws1 -> all_space rt ws2 ->
  strip rt (ws1 ++ t ++ ws2) = strip rt t.
Proof.
  intros H1 H2. unfold strip. rewrite lstrip_space by assumption.
  destruct (lstrip rt t) as [|c r] eqn:E.
  - apply drop_while_nil in E. unfold lstrip.
    rewrite drop_while_all by assumption.
    rewrite <- (app_nil_r ws2), drop_while_all by assumption. reflexivity.
  - unfold lstrip in *. rewrite drop_while_app_keep by (rewrite E; discriminate).
    rewrite E. now apply rstrip_space.
Qed.

(** X1.  White space before and after the model's output does not change
    what the detector returns. *)
Theorem detect_ignores_outer_space ws1 text ws2 :
  all_space rt ws1 -> all_space rt ws2 ->
  detect_weather_tool_call rt (ws1 ++ text ++ ws2)
  = detect_weather_tool_call rt text.
Proof.
  intros H1 H2. unfold detect_weather_tool_call.
  now rewrite strip_space.
Qed.

End StripMore.
